(** * Orbit paths and the orbital clock of the solar-system model

    A shallow embedding of the orbital-mechanics core of [src/main.js]:
    [degToRad], [createOrbit], [setTilt], [createPlanet], [createRing] and
    [updateSystemPosition].

    Numbers.  A JavaScript number is read as a real number: [+], [-], [*]
    and [/] are the field operations of [R], [Math.cos], [Math.sin] and
    [Math.sqrt] are [cos], [sin] and [sqrt], [Math.PI] is [PI].  Rounding,
    overflow to an infinity and NaN have no counterpart in this reading;
    in particular the value of [Math.sqrt] at a negative number and of a
    division by zero are outside what the embedding describes, and no
    statement below depends on them.

    The rendering engine.  The functions of the three.js library that
    [main.js] calls on the orbit path and on the meshes are embedded in
    [Module THREE], from the library's own code, restricted to the state
    that [main.js] reads back: the point list of a geometry, and the
    position and Euler rotation of a mesh.  The 32-bit storage of a
    geometry buffer is read as exact, and its flat layout as a list of
    triples.  The scene, materials, textures, camera and renderer are
    plumbing and are left out. *)

From Stdlib Require Import String.
From Stdlib Require Import Reals Lra Lia ZArith List Bool.
From Stdlib Require Import Machin.
Import ListNotations.
Local Open Scope R_scope.

(** ** JavaScript numbers and [Math] *)

Module JS.

(** A value held by an object field: a number, or [undefined] (what a
    read outside an array yields). *)
Inductive value : Type :=
| num (r : R)
| undefined.

Definition Math_PI : R := PI.
Definition Math_sqrt (r : R) : R := sqrt r.
Definition Math_cos (r : R) : R := cos r.
Definition Math_sin (r : R) : R := sin r.
Definition Math_abs (r : R) : R := Rabs r.

(** [Math.floor]: the greatest integer below or equal to [r]. *)
Definition Math_floor (r : R) : Z := Int_part r.

(** Rounding towards zero, the quotient that [%] uses. *)
Definition trunc (r : R) : Z :=
  if Rle_dec 0 r then Int_part r else (- Int_part (- r))%Z.

(** [x % y]: the remainder has the sign of the dividend [x]. *)
Definition rem (x y : R) : R := x - y * IZR (trunc (x / y)).

(** [Number.EPSILON] *)
Definition Number_EPSILON : R := / 2 ^ 52.

(** Completion of a call: it returns a value or throws. *)
Inductive completion (A : Type) : Type :=
| Return (v : A)
| Throw (message : string).
Arguments Return {A} v.
Arguments Throw {A} message.

End JS.

(** ** The three.js functions used by [main.js] *)

Module THREE.
Import JS.

(** [Vector2], as produced by a curve: both fields are numbers. *)
Record Vector2 : Type := mkVector2 { v2x : R; v2y : R }.

(** One vertex of a position buffer ([itemSize] 3). *)
Definition vertex : Type := (R * R * R)%type.

(** [Vector3] as an object whose fields are assigned from outside. *)
Record Vector3 : Type := mkVector3 { x : value; y : value; z : value }.

(** [new THREE.Vector3()] *)
Definition Vector3_new : Vector3 := mkVector3 (num 0) (num 0) (num 0).

(** [Vector3.set(x, y, z)]: an [undefined] third argument keeps the
    current [z] (the library's two-argument form). *)
Definition Vector3_set (this : Vector3) (x' y' z' : value) : Vector3 :=
  let z' := match z' with undefined => z this | num _ => z' end in
  mkVector3 x' y' z'.

(** [Euler]: the three rotation angles of an object. *)
Record Euler : Type := mkEuler { ex : R; ey : R; ez : R }.

(** [Mesh], reduced to its transform. *)
Record Mesh : Type := mkMesh { position : Vector3; rotation : Euler }.

(** A mesh as its constructor leaves it. *)
Definition Mesh_new : Mesh := mkMesh Vector3_new (mkEuler 0 0 0).

(** [Matrix4], named by row and column as in [Matrix4.set]. *)
Record Matrix4 : Type := mkMatrix4 {
  n11 : R; n12 : R; n13 : R; n14 : R;
  n21 : R; n22 : R; n23 : R; n24 : R;
  n31 : R; n32 : R; n33 : R; n34 : R;
  n41 : R; n42 : R; n43 : R; n44 : R }.

(** [Matrix4.makeRotationX(theta)] *)
Definition makeRotationX (theta : R) : Matrix4 :=
  let c := Math_cos theta in
  let s := Math_sin theta in
  mkMatrix4 1 0 0 0
            0 c (- s) 0
            0 s c 0
            0 0 0 1.

(** [Matrix4.makeRotationY(theta)] *)
Definition makeRotationY (theta : R) : Matrix4 :=
  let c := Math_cos theta in
  let s := Math_sin theta in
  mkMatrix4 c 0 s 0
            0 1 0 0
            (- s) 0 c 0
            0 0 0 1.

(** [Vector3.applyMatrix4(m)] on a vertex read from a buffer. *)
Definition applyMatrix4 (m : Matrix4) (v : vertex) : vertex :=
  let '(vx, vy, vz) := v in
  let w := 1 / (n41 m * vx + n42 m * vy + n43 m * vz + n44 m) in
  ((n11 m * vx + n12 m * vy + n13 m * vz + n14 m) * w,
   (n21 m * vx + n22 m * vy + n23 m * vz + n24 m) * w,
   (n31 m * vx + n32 m * vy + n33 m * vz + n34 m) * w).

(** [BufferAttribute] of item size 3. *)
Record BufferAttribute : Type := mkBufferAttribute { array : list vertex }.

(** [attribute.count] *)
Definition count (attr : BufferAttribute) : Z :=
  Z.of_nat (length (array attr)).

(** [array[index * 3 + k]]: [undefined] outside the array. *)
Definition item (attr : BufferAttribute) (index : Z) : option vertex :=
  if (index <? 0)%Z then None else nth_error (array attr) (Z.to_nat index).

Definition component (f : vertex -> R) (o : option vertex) : value :=
  match o with
  | Some v => num (f v)
  | None => undefined
  end.

(** [attribute.getX(index)], [getY], [getZ] *)
Definition getX (attr : BufferAttribute) (index : Z) : value :=
  component (fun v => fst (fst v)) (item attr index).
Definition getY (attr : BufferAttribute) (index : Z) : value :=
  component (fun v => snd (fst v)) (item attr index).
Definition getZ (attr : BufferAttribute) (index : Z) : value :=
  component (fun v => snd v) (item attr index).

(** [BufferGeometry], reduced to its ['position'] attribute. *)
Record BufferGeometry : Type := mkBufferGeometry { attr_position : BufferAttribute }.

(** [geometry.getAttribute('position')] *)
Definition getAttribute_position (g : BufferGeometry) : BufferAttribute :=
  attr_position g.

(** [new BufferGeometry().setFromPoints(points)]: a [Vector2] has no [z],
    and [point.z || 0] stores 0. *)
Definition setFromPoints (points : list Vector2) : BufferGeometry :=
  mkBufferGeometry
    (mkBufferAttribute (map (fun p => (v2x p, v2y p, 0)) points)).

(** [geometry.applyMatrix4(m)]: every vertex of the position attribute
    is transformed in place (there are no normals or tangents). *)
Definition BufferGeometry_applyMatrix4 (g : BufferGeometry) (m : Matrix4)
  : BufferGeometry :=
  mkBufferGeometry
    (mkBufferAttribute (map (applyMatrix4 m) (array (attr_position g)))).

(** [geometry.rotateX(angle)], [geometry.rotateY(angle)] *)
Definition rotateX (g : BufferGeometry) (angle : R) : BufferGeometry :=
  BufferGeometry_applyMatrix4 g (makeRotationX angle).
Definition rotateY (g : BufferGeometry) (angle : R) : BufferGeometry :=
  BufferGeometry_applyMatrix4 g (makeRotationY angle).

(** [EllipseCurve(aX, aY, xRadius, yRadius, aStartAngle, aEndAngle,
    aClockwise, aRotation)] *)
Record EllipseCurve : Type := mkEllipseCurve {
  aX : R; aY : R;
  xRadius : R; yRadius : R;
  aStartAngle : R; aEndAngle : R;
  aClockwise : bool;
  aRotation : R }.

(** [while (deltaAngle < 0) deltaAngle += twoPi], in closed form: the
    loop adds [twoPi] the least number of times that leaves a
    non-negative angle. *)
Definition wind_up (twoPi deltaAngle : R) : R :=
  if Rlt_dec deltaAngle 0
  then deltaAngle + IZR (- Int_part (deltaAngle / twoPi)) * twoPi
  else deltaAngle.

(** [while (deltaAngle > twoPi) deltaAngle -= twoPi], in closed form. *)
Definition wind_down (twoPi deltaAngle : R) : R :=
  if Rlt_dec twoPi deltaAngle
  then deltaAngle - IZR (- Int_part (- (deltaAngle / twoPi)) - 1) * twoPi
  else deltaAngle.

(** The sweep of the curve, as [EllipseCurve.getPoint] normalises it. *)
Definition sweep (c : EllipseCurve) : R :=
  let twoPi := Math_PI * 2 in
  let deltaAngle := aEndAngle c - aStartAngle c in
  let samePoints := Rlt_dec (Math_abs deltaAngle) Number_EPSILON in
  let deltaAngle := wind_up twoPi deltaAngle in
  let deltaAngle := wind_down twoPi deltaAngle in
  let deltaAngle :=
    if Rlt_dec deltaAngle Number_EPSILON
    then (if samePoints then 0 else twoPi)
    else deltaAngle in
  if aClockwise c && (if samePoints then false else true)
  then (if Req_dec_T deltaAngle twoPi then - twoPi else deltaAngle - twoPi)
  else deltaAngle.

(** [EllipseCurve.getPoint(t)] *)
Definition getPoint (c : EllipseCurve) (t : R) : Vector2 :=
  let angle := aStartAngle c + t * sweep c in
  let px := aX c + xRadius c * Math_cos angle in
  let py := aY c + yRadius c * Math_sin angle in
  if Req_dec_T (aRotation c) 0 then mkVector2 px py
  else
    let cos := Math_cos (aRotation c) in
    let sin := Math_sin (aRotation c) in
    let tx := px - aX c in
    let ty := py - aY c in
    mkVector2 (tx * cos - ty * sin + aX c) (tx * sin + ty * cos + aY c).

(** The loop counter of [Curve.getPoints]: [d = 0, 1, ..., divisions]. *)
Definition steps (divisions : Z) : list Z :=
  map Z.of_nat (seq 0 (Z.to_nat (divisions + 1))).

(** [Curve.getPoints(divisions)]: [getPoint(d / divisions)] for every
    [d] from 0 to [divisions], both included. *)
Definition getPoints (c : EllipseCurve) (divisions : Z) : list Vector2 :=
  map (fun d => getPoint c (IZR d / IZR divisions)) (steps divisions).

End THREE.

(** ** [main.js] *)

Import JS THREE.

(** [degToRad(number)]: an angle in degrees, in radians. *)
Definition degToRad (number : R) : R := number * (Math_PI / 180).

(** [createOrbit(a, e, inclination, lAN, aP)]: the geometry of the orbit
    path.  The line added to the scene is display only. *)
Definition createOrbit (a e inclination lAN aP : R) : BufferGeometry :=
  let b := a * Math_sqrt (1 - e * e) in
  let a := a * 100 in
  let b := b * 100 in
  let curve :=
    mkEllipseCurve 0 0 a b 0 (2 * Math_PI) false (degToRad aP) in
  let orbitPoints := getPoints curve 50000 in
  let orbitGeom := setFromPoints orbitPoints in
  let orbitGeom := rotateX orbitGeom (degToRad inclination - Math_PI / 2) in
  let orbitGeom := rotateY orbitGeom (degToRad lAN) in
  orbitGeom.

(** The call of [createOrbit] as a completion: its body has no [throw]
    and calls nothing that validates its arguments. *)
Definition createOrbit_call (a e inclination lAN aP : R)
  : completion BufferGeometry :=
  Return (createOrbit a e inclination lAN aP).

(** [setTilt(body, tilt)]: the axial tilt, in degrees, added to the
    rotation about x. *)
Definition setTilt (body : Mesh) (tilt : R) : Mesh :=
  let r := rotation body in
  mkMesh (position body) (mkEuler (ex r + degToRad tilt) (ey r) (ez r)).

(** The [orbitParameters] object of a [createPlanet] call. *)
Record OrbitParameters : Type := mkOrbitParameters {
  a : R; e : R; i : R; lAN : R; aP : R }.

(** The [ringRadii] object of a [createPlanet] call. *)
Record RingRadii : Type := mkRingRadii { innerRadius : R; outerRadius : R }.

(** What [createPlanet] returns: [{ planet, orbit, ring }] or
    [{ planet, orbit }]. *)
Record System : Type := mkSystem {
  planet : Mesh;
  orbit : BufferGeometry;
  ring : option Mesh }.

(** [createRing(bodyName, ringRadii)]: a fresh mesh; the ring geometry
    and its texture are display only. *)
Definition createRing (bodyName : string) (ringRadii : RingRadii) : Mesh :=
  Mesh_new.

(** [createPlanet(name, radius, orbitParameters, axialTilt, ringRadii)];
    an omitted [ringRadii] is [None]. *)
Definition createPlanet (name : string) (radius : R)
    (orbitParameters : OrbitParameters) (axialTilt : R)
    (ringRadii : option RingRadii) : System :=
  let planet := Mesh_new in
  let planet := setTilt planet axialTilt in
  let orbit :=
    createOrbit (a orbitParameters) (e orbitParameters) (i orbitParameters)
                (lAN orbitParameters) (aP orbitParameters) in
  match ringRadii with
  | Some radii =>
      let ring := createRing name radii in
      let r := rotation ring in
      let ring :=
        mkMesh (position ring)
               (mkEuler (ex r + (0.5 * Math_PI + axialTilt * (Math_PI / 180)))
                        (ey r) (ez r)) in
      mkSystem planet orbit (Some ring)
  | None => mkSystem planet orbit None
  end.

(** [timeConversionFactor], the first local of [updateSystemPosition]. *)
Definition timeConversionFactor (orbitalPeriod : R) : R :=
  ((2 * Math_PI) / (orbitalPeriod * 86400)) * 300.

(** [pointIndex], as [updateSystemPosition] computes it from the clock
    reading [now] (the value of [performance.now()]) and the position
    attribute of the orbit. *)
Definition pointIndex (now orbitalPeriod : R) (position : BufferAttribute) : Z :=
  let time := now * timeConversionFactor orbitalPeriod in
  Math_floor (rem time 1 * (IZR (count position) - 1)).

(** [mesh.position.set(x, y, z)] *)
Definition set_position (m : Mesh) (x' y' z' : value) : Mesh :=
  mkMesh (Vector3_set (position m) x' y' z') (rotation m).

(** [mesh.rotation.y += delta] *)
Definition add_rotation_y (m : Mesh) (delta : R) : Mesh :=
  let r := rotation m in
  mkMesh (position m) (mkEuler (ex r) (ey r + delta) (ez r)).

(** [updateSystemPosition(system, orbitalPeriod, rotationPeriod)].  The
    clock reading [now] is the value [performance.now()] returns during
    the call; the system after the call is returned. *)
Definition updateSystemPosition (now : R) (system : System)
    (orbitalPeriod rotationPeriod : R) : System :=
  let position := getAttribute_position (orbit system) in
  let pointIndex := pointIndex now orbitalPeriod position in
  let point := Vector3_new in
  let point := mkVector3 (getX position pointIndex) (y point) (z point) in
  let point := mkVector3 (x point) (getY position pointIndex) (z point) in
  let point := mkVector3 (x point) (y point) (getZ position pointIndex) in
  let planet := set_position (planet system) (x point) (y point) (z point) in
  let rotationPeriod := (2 * Math_PI) / rotationPeriod * 0.1 in
  let planet := add_rotation_y planet (rotationPeriod * (Math_PI / 180)) in
  match ring system with
  | Some ring =>
      let ring := set_position ring (x point) (y point) (z point) in
      let planet := add_rotation_y planet (rotationPeriod * (Math_PI / 180)) in
      mkSystem planet (orbit system) (Some ring)
  | None => mkSystem planet (orbit system) None
  end.

(** One call of [updateSystemPosition] on a body, with the clock reading
    it sees. *)
Record call : Type := mkCall {
  call_now : R;
  call_orbitalPeriod : R;
  call_rotationPeriod : R }.

(** A sequence of calls on the same system, first call first. *)
Definition run (calls : list call) (system : System) : System :=
  fold_left
    (fun s c =>
       updateSystemPosition (call_now c) s
         (call_orbitalPeriod c) (call_rotationPeriod c))
    calls system.

(** The frames of [animate] for one body: one call per clock reading,
    always with the two periods written at its call site. *)
Definition frames (orbitalPeriod rotationPeriod : R) (times : list R)
    (system : System) : System :=
  run (map (fun now => mkCall now orbitalPeriod rotationPeriod) times) system.

(** The spin angle of the body. *)
Definition spin (system : System) : R := ey (rotation (planet system)).

(** The spin added by one statement [rotation.y += ...] of
    [updateSystemPosition]. *)
Definition spinIncrement (rotationPeriod : R) : R :=
  (2 * PI / rotationPeriod) * 0.1 * (PI / 180).

(** ** The bodies of the scene and the frame loop *)

(** The ten top-level systems of [main.js], in the order they are
    created. *)
Record Scene : Type := mkScene {
  mercury : System; venus : System; earth : System; mars : System;
  ceres : System; jupiter : System; saturn : System; uranus : System;
  neptune : System; pluto : System }.

(** The scene as the ten [createPlanet] calls leave it; only Saturn is
    given ring radii. *)
Definition scene_created : Scene :=
  mkScene
    (createPlanet "mercury" 2.4397
       (mkOrbitParameters 0.387098 0.205630 7.005 48.331 29.124) 0.034 None)
    (createPlanet "venus" 6.0518
       (mkOrbitParameters 0.723332 0.006772 3.39458 76.680 54.884) 177.36 None)
    (createPlanet "earth" 6.371
       (mkOrbitParameters 1 0.0167086 0 (-11.26064) 114.20783) 23.44 None)
    (createPlanet "mars" 3.3895
       (mkOrbitParameters 1.52368055 0.0934 1.85 49.57854 296.5) 25.19 None)
    (createPlanet "ceres" 0.4762
       (mkOrbitParameters 2.7658 0.078 10.607 80.7 73.1) 4 None)
    (createPlanet "jupiter" 69.911
       (mkOrbitParameters 5.2026 0.0489 1.303 100.464 273.867) 3.13 None)
    (createPlanet "saturn" 58.232
       (mkOrbitParameters 9.5826 0.0565 2.485 113.665 339.392) 26.73
       (Some (mkRingRadii 66.9 136.775)))
    (createPlanet "uranus" 25.362
       (mkOrbitParameters 19.19126 0.04717 0.773 74.006 96.998857) 97.77 None)
    (createPlanet "neptune" 24.622
       (mkOrbitParameters 30.07 0.008678 1.77 131.783 273.187) 28.32 None)
    (createPlanet "pluto" 1.186
       (mkOrbitParameters 39.482 0.2488 17.16 110.299 113.834) 112.53 None).

(** One run of [animate]: the ten calls of [updateSystemPosition], each
    with the periods written at its call site.  Every call reads the
    clock for itself; [now k] is the reading of the call number [k].  The
    camera controls and the render call are display only. *)
Definition animate (now : nat -> R) (s : Scene) : Scene :=
  mkScene
    (updateSystemPosition (now 0%nat) (mercury s) 87.97 58.6)
    (updateSystemPosition (now 1%nat) (venus s) 224.70 (-243))
    (updateSystemPosition (now 2%nat) (earth s) 365.26 1)
    (updateSystemPosition (now 3%nat) (mars s) 686.98 1.03)
    (updateSystemPosition (now 4%nat) (ceres s) 1682.14 0.38)
    (updateSystemPosition (now 5%nat) (jupiter s) 4332.59 0.41)
    (updateSystemPosition (now 6%nat) (saturn s) 10855.7 0.44)
    (updateSystemPosition (now 7%nat) (uranus s) 30687.15 0.72)
    (updateSystemPosition (now 8%nat) (neptune s) 60190.03 0.67)
    (updateSystemPosition (now 9%nat) (pluto s) 90560.73 (-6.4)).

(** The frames that [requestAnimationFrame] schedules, first frame
    first, each with its clock readings. *)
Definition animation (clocks : list (nat -> R)) (s : Scene) : Scene :=
  fold_left (fun s now => animate now s) clocks s.

(** The bodies of a scene. *)
Definition bodies (s : Scene) : list System :=
  [mercury s; venus s; earth s; mars s; ceres s;
   jupiter s; saturn s; uranus s; neptune s; pluto s].

(** A vector all of whose fields hold numbers. *)
Definition numeric (v : Vector3) : Prop :=
  exists vx vy vz, v = mkVector3 (num vx) (num vy) (num vz).

(** A system whose body is at a numeric position, with its ring, if it
    has one, at the same position. *)
Definition settled (body : System) : Prop :=
  numeric (position (planet body)) /\
  forall r, ring body = Some r -> position r = position (planet body).

(** The squared distance of a vertex to the origin, where the Sun is. *)
Definition norm2 (v : vertex) : R :=
  let '(vx, vy, vz) := v in vx * vx + vy * vy + vz * vz.

(** ** The orbit path as the specification words it

    The steps of the Orbit Path Builder, written from their description:
    semi-minor axis, rescale by 100, a point of the ellipse at angle
    [theta], the in-plane rotation by the argument of periapsis, the
    embedding at [z = 0], the rotation about X and the rotation about Y. *)
Module Spec.

Definition radians (degrees : R) : R := degrees * PI / 180.

Definition semiMinorAxis (a e : R) : R := a * sqrt (1 - e * e).

Definition ellipsePoint (a b theta : R) : R * R :=
  (a * cos theta, b * sin theta).

(** Counter-clockwise rotation of the plane by [phi]. *)
Definition rotateInPlane (phi : R) (p : R * R) : R * R :=
  (fst p * cos phi - snd p * sin phi, fst p * sin phi + snd p * cos phi).

Definition embed (p : R * R) : R * R * R := (fst p, snd p, 0).

Definition rotateAboutX (alpha : R) (p : R * R * R) : R * R * R :=
  let '(px, py, pz) := p in
  (px, py * cos alpha - pz * sin alpha, py * sin alpha + pz * cos alpha).

Definition rotateAboutY (beta : R) (p : R * R * R) : R * R * R :=
  let '(px, py, pz) := p in
  (px * cos beta + pz * sin beta, py, - px * sin beta + pz * cos beta).

Definition orbitPoint (a e inclination lAN aP theta : R) : R * R * R :=
  rotateAboutY (radians lAN)
    (rotateAboutX (radians inclination - PI / 2)
       (embed
          (rotateInPlane (radians aP)
             (ellipsePoint (100 * a) (100 * semiMinorAxis a e) theta)))).

(** The sample angles: [2 * PI * k / n] for [k = 0, ..., n], from 0 to
    [2 * PI]. *)
Definition sampleAngles (n : nat) : list R :=
  map (fun k => 2 * PI * INR k / INR n) (seq 0 (S n)).

Definition buildOrbit (a e inclination lAN aP : R) (n : nat)
  : list (R * R * R) :=
  map (orbitPoint a e inclination lAN aP) (sampleAngles n).

(** [phase mod 1]: the fractional progress around the orbit. *)
Definition fraction (phase : R) : R := frac_part phase.

(** The phase of the orbital clock. *)
Definition phase (currentTimeMs orbitalPeriod : R) : R :=
  currentTimeMs * (2 * PI / (orbitalPeriod * 86400)) * 300.

End Spec.

(** ** Auxiliary facts on numbers *)

Lemma EPSILON_lt_1 : Number_EPSILON < 1.
Proof.
  unfold Number_EPSILON.
  assert (H : 1 < 2 ^ 52) by (apply Rlt_pow_R1; [lra | lia]).
  rewrite <- Rinv_1. apply Rinv_lt_contravar; lra.
Qed.

Lemma degToRad_radians (d : R) : degToRad d = Spec.radians d.
Proof. unfold degToRad, Spec.radians, Math_PI. field. Qed.

(** The sign convention of [%]: a negative dividend gives a negative
    remainder. *)
Lemma rem_negative_dividend : rem (- (1 / 2)) 1 = - (1 / 2).
Proof.
  unfold rem, trunc.
  replace (- (1 / 2) / 1) with (- (1 / 2)) by field.
  destruct (Rle_dec 0 (- (1 / 2))) as [H | _]; [lra |].
  replace (- - (1 / 2)) with (1 / 2) by ring.
  assert (H0 : Int_part (1 / 2) = 0%Z).
  { symmetry. apply Int_part_spec. simpl. lra. }
  rewrite H0. simpl. ring.
Qed.

(** The closed form of the first loop of [getPoint] is what the loop
    computes: from a negative angle, whole turns are added, at least one,
    and the first non-negative value reached is below one turn. *)
Lemma wind_up_loop (twoPi deltaAngle : R) :
  0 < twoPi -> deltaAngle < 0 ->
  exists k : Z,
    (1 <= k)%Z /\
    wind_up twoPi deltaAngle = deltaAngle + IZR k * twoPi /\
    0 <= wind_up twoPi deltaAngle < twoPi.
Proof.
  intros Hturn Hneg. unfold wind_up.
  destruct (Rlt_dec deltaAngle 0) as [_ | H]; [| contradiction].
  set (q := deltaAngle / twoPi).
  assert (Hq : deltaAngle = q * twoPi) by (unfold q; field; lra).
  assert (Hq0 : q < 0).
  { assert (Hinv : 0 < / twoPi) by (apply Rinv_0_lt_compat; lra).
    unfold q, Rdiv. nra. }
  destruct (base_Int_part q) as [Hle Hgt].
  exists (- Int_part q)%Z. split; [| split].
  - assert (H : (Int_part q < 0)%Z) by (apply lt_IZR; lra). lia.
  - reflexivity.
  - rewrite opp_IZR, Hq. split; nra.
Qed.

(** Likewise for the second loop: from an angle above one turn, whole
    turns are taken away, at least one, down to the first value that is
    at most one turn; that value is positive. *)
Lemma wind_down_loop (twoPi deltaAngle : R) :
  0 < twoPi -> twoPi < deltaAngle ->
  exists k : Z,
    (1 <= k)%Z /\
    wind_down twoPi deltaAngle = deltaAngle - IZR k * twoPi /\
    0 < wind_down twoPi deltaAngle <= twoPi.
Proof.
  intros Hturn Hbig. unfold wind_down.
  destruct (Rlt_dec twoPi deltaAngle) as [_ | H]; [| contradiction].
  set (q := deltaAngle / twoPi).
  assert (Hq : deltaAngle = q * twoPi) by (unfold q; field; lra).
  assert (Hq1 : 1 < q) by nra.
  destruct (base_Int_part (- q)) as [Hle Hgt].
  exists (- Int_part (- q) - 1)%Z. split; [| split].
  - assert (H : (Int_part (- q) < -1)%Z) by (apply lt_IZR; lra). lia.
  - reflexivity.
  - rewrite minus_IZR, opp_IZR, Hq. split; nra.
Qed.

(** The curve that [createOrbit] builds sweeps one full turn: neither
    loop of [getPoint] runs and no branch changes [deltaAngle]. *)
Lemma sweep_full_turn (cx cy rx ry rot : R) :
  sweep (mkEllipseCurve cx cy rx ry 0 (2 * Math_PI) false rot) = 2 * PI.
Proof.
  pose proof PI2_1 as Hpi. pose proof EPSILON_lt_1 as Heps.
  unfold sweep, wind_up, wind_down, Math_PI, Math_abs. cbn [aEndAngle aStartAngle aClockwise].
  rewrite Rminus_0_r.
  destruct (Rlt_dec (2 * PI) 0) as [H | _]; [lra |].
  destruct (Rlt_dec (PI * 2) (2 * PI)) as [H | _]; [lra |].
  destruct (Rlt_dec (2 * PI) Number_EPSILON) as [H | _]; [lra |].
  destruct (Rlt_dec (Rabs (2 * PI)) Number_EPSILON); reflexivity.
Qed.

(** One vertex of the path: the curve point at parameter [t], stored with
    [z = 0], rotated about X and then about Y. *)
Lemma createOrbit_vertex (a e inclination lAN aP t : R) :
  applyMatrix4 (makeRotationY (degToRad lAN))
    (applyMatrix4 (makeRotationX (degToRad inclination - Math_PI / 2))
       (let p := getPoint
                   (mkEllipseCurve 0 0 (a * 100) (a * Math_sqrt (1 - e * e) * 100)
                      0 (2 * Math_PI) false (degToRad aP)) t in
        (v2x p, v2y p, 0)))
  = Spec.orbitPoint a e inclination lAN aP (2 * PI * t).
Proof.
  unfold getPoint. rewrite sweep_full_turn.
  cbn [aX aY xRadius yRadius aStartAngle aRotation].
  rewrite !degToRad_radians.
  unfold Spec.orbitPoint, Spec.rotateAboutY, Spec.rotateAboutX, Spec.embed,
    Spec.rotateInPlane, Spec.ellipsePoint, Spec.semiMinorAxis.
  unfold Math_cos, Math_sin, Math_sqrt, Math_PI.
  replace (0 + t * (2 * PI)) with (2 * PI * t) by ring.
  destruct (Req_dec_T (Spec.radians aP) 0) as [H0 | Hn].
  - rewrite H0, cos_0, sin_0.
    cbn [v2x v2y applyMatrix4 makeRotationX makeRotationY fst snd
         n11 n12 n13 n14 n21 n22 n23 n24 n31 n32 n33 n34 n41 n42 n43 n44
         Math_cos Math_sin].
    unfold Math_cos, Math_sin.
    f_equal; [f_equal |]; field.
  - cbn [v2x v2y applyMatrix4 makeRotationX makeRotationY fst snd
         n11 n12 n13 n14 n21 n22 n23 n24 n31 n32 n33 n34 n41 n42 n43 n44].
    unfold Math_cos, Math_sin.
    f_equal; [f_equal |]; field.
Qed.

Lemma steps_succ (n : Z) :
  (0 <= n)%Z -> steps n = map Z.of_nat (seq 0 (S (Z.to_nat n))).
Proof.
  intros Hn. unfold steps.
  rewrite Z.add_1_r, Z2Nat.inj_succ by exact Hn. reflexivity.
Qed.

Lemma steps_length (n : Z) :
  (0 <= n)%Z -> Z.of_nat (length (steps n)) = (n + 1)%Z.
Proof.
  intros Hn. unfold steps. rewrite length_map, length_seq. lia.
Qed.

(** The position buffer of [createOrbit], vertex by vertex. *)
Lemma createOrbit_array (a e inclination lAN aP : R) :
  array (attr_position (createOrbit a e inclination lAN aP)) =
  map (fun d =>
         Spec.orbitPoint a e inclination lAN aP (2 * PI * (IZR d / IZR 50000)))
      (steps 50000).
Proof.
  unfold createOrbit, rotateY, rotateX, BufferGeometry_applyMatrix4,
    setFromPoints, getPoints.
  cbn [array attr_position].
  rewrite !map_map.
  apply map_ext. intros d.
  apply createOrbit_vertex.
Qed.

Lemma createOrbit_count (a e inclination lAN aP : R) :
  count (attr_position (createOrbit a e inclination lAN aP)) = 50001%Z.
Proof.
  unfold count. rewrite createOrbit_array, length_map.
  rewrite steps_length by lia. reflexivity.
Qed.

(** C1. For every input with [0 <= e < 1] and [a > 0], the path returned
    by [createOrbit] is the composition of the stated steps: semi-minor
    axis [a * sqrt (1 - e * e)], both axes scaled by 100, the points of
    the ellipse rotated in its plane by [aP] in radians, traversed
    counter-clockwise from angle 0 to [2 * PI], then rotated about X by
    the inclination in radians minus [PI / 2], then about Y by [lAN] in
    radians, and nothing else. *)
Theorem createOrbit_is_composition (a e inclination lAN aP : R) :
  0 <= e < 1 -> 0 < a ->
  array (attr_position (createOrbit a e inclination lAN aP)) =
  Spec.buildOrbit a e inclination lAN aP (Z.to_nat 50000).
Proof.
  intros _ _.
  rewrite createOrbit_array, steps_succ by lia.
  unfold Spec.buildOrbit, Spec.sampleAngles.
  rewrite !map_map.
  apply map_ext. intros k.
  f_equal.
  rewrite (INR_IZR_INZ (Z.to_nat 50000)), Z2Nat.id by lia.
  rewrite <- INR_IZR_INZ.
  unfold Rdiv. ring.
Qed.

Lemma createOrbit_is_composition_witness :
  array (attr_position (createOrbit 1 (1 / 2) 7 48 29)) =
  Spec.buildOrbit 1 (1 / 2) 7 48 29 (Z.to_nat 50000).
Proof.
  apply createOrbit_is_composition; lra.
Defined.

Lemma steps_nth (n : Z) (k : nat) :
  (Z.of_nat k <= n)%Z -> nth_error (steps n) k = Some (Z.of_nat k).
Proof.
  intros Hk. unfold steps. rewrite nth_error_map, nth_error_seq.
  destruct (Nat.ltb_spec k (Z.to_nat (n + 1))) as [_ | Hge]; [reflexivity | lia].
Qed.

(** Reading inside the buffer yields the stored vertex. *)
Lemma item_inside (attr : BufferAttribute) (index : Z) :
  (0 <= index < count attr)%Z -> exists v, item attr index = Some v.
Proof.
  intros [Hlo Hhi]. unfold item, count in *.
  destruct (Z.ltb_spec index 0) as [Hneg | _]; [lia |].
  destruct (nth_error (array attr) (Z.to_nat index)) as [v |] eqn:Hnth.
  - exists v. reflexivity.
  - apply nth_error_None in Hnth. lia.
Qed.

(** The vertex that [createOrbit] stores at index [d]. *)
Lemma createOrbit_item (a e inclination lAN aP : R) (d : Z) :
  (0 <= d <= 50000)%Z ->
  item (attr_position (createOrbit a e inclination lAN aP)) d =
  Some (Spec.orbitPoint a e inclination lAN aP (2 * PI * (IZR d / IZR 50000))).
Proof.
  intros [Hlo Hhi]. unfold item.
  destruct (Z.ltb_spec d 0) as [Hneg | _]; [lia |].
  rewrite createOrbit_array, nth_error_map, steps_nth by lia.
  cbn [option_map]. rewrite Z2Nat.id by lia. reflexivity.
Qed.

Lemma orbitPoint_closed (a e inclination lAN aP : R) :
  Spec.orbitPoint a e inclination lAN aP (2 * PI * (IZR 50000 / IZR 50000)) =
  Spec.orbitPoint a e inclination lAN aP (2 * PI * (IZR 0 / IZR 50000)).
Proof.
  replace (2 * PI * (IZR 50000 / IZR 50000)) with (2 * PI) by (field; lra).
  replace (2 * PI * (IZR 0 / IZR 50000)) with 0 by (field; lra).
  unfold Spec.orbitPoint, Spec.ellipsePoint.
  rewrite cos_2PI, sin_2PI, cos_0, sin_0. reflexivity.
Qed.

(** C4, as the code has it. For all valid orbital elements [createOrbit]
    returns exactly 50001 points, one more than the 50000 divisions it
    asks of the curve, and the first and the last point of the sequence
    are the same point: the curve is closed. *)
Theorem createOrbit_points_closed (a e inclination lAN aP : R) :
  0 <= e < 1 -> 0 < a ->
  let points := attr_position (createOrbit a e inclination lAN aP) in
  count points = 50001%Z /\
  exists first,
    item points 0 = Some first /\ item points (count points - 1) = Some first.
Proof.
  intros _ _ points. subst points.
  rewrite createOrbit_count. split; [reflexivity |].
  eexists. split.
  - rewrite createOrbit_item by lia. reflexivity.
  - replace (50001 - 1)%Z with 50000%Z by reflexivity.
    rewrite createOrbit_item by lia.
    rewrite orbitPoint_closed. reflexivity.
Qed.

Lemma createOrbit_points_closed_witness :
  (0 <= 1 / 2 < 1 /\ 0 < 1) /\
  let points := attr_position (createOrbit 1 (1 / 2) 7 48 29) in
  count points = 50001%Z /\
  exists first,
    item points 0 = Some first /\ item points (count points - 1) = Some first.
Proof.
  split; [lra |].
  apply (createOrbit_points_closed 1 (1 / 2) 7 48 29); lra.
Defined.

(** C4, as stated, fails: the sample count that [createOrbit] requests
    is the 50000 it passes to [getPoints], and the path it returns does
    not have 50000 points. *)
Lemma createOrbit_sample_count_counterexample :
  count (attr_position (createOrbit 1 0 0 0 0)) <> 50000%Z.
Proof.
  rewrite createOrbit_count. discriminate.
Qed.

(** C9, as the code has it. [createOrbit] validates nothing: for every
    eccentricity [e >= 1], as for any other, the call returns a path of
    50001 points and throws nothing. *)
Theorem createOrbit_never_rejects (a e inclination lAN aP : R) :
  1 <= e ->
  exists path,
    createOrbit_call a e inclination lAN aP = Return path /\
    count (attr_position path) = 50001%Z.
Proof.
  intros _. exists (createOrbit a e inclination lAN aP).
  split; [reflexivity | apply createOrbit_count].
Qed.

Lemma createOrbit_never_rejects_witness :
  1 <= 1 /\
  exists path,
    createOrbit_call 1 1 0 0 0 = Return path /\
    count (attr_position path) = 50001%Z.
Proof.
  split; [lra |].
  apply (createOrbit_never_rejects 1 1 0 0 0); lra.
Defined.

(** C9, as stated, fails at [e = 1]: the call [createOrbit(1, 1, 0, 0, 0)]
    is not rejected, it returns a path. *)
Lemma createOrbit_accepts_eccentricity_one :
  1 <= 1 /\
  ~ (exists message, createOrbit_call 1 1 0 0 0 = Throw message) /\
  createOrbit_call 1 1 0 0 0 = Return (createOrbit 1 1 0 0 0).
Proof.
  split; [lra |]. split; [| reflexivity].
  intros [message H]. discriminate H.
Qed.

(** ** The orbital clock *)

Lemma PI_bounds : 313 / 100 < PI < 315 / 100.
Proof.
  pose proof (PI_2_3_7_ineq 1) as [Hlo Hhi].
  unfold PI_2_3_7_tg, tg_alt, Ratan_seq in Hlo, Hhi.
  simpl in Hlo, Hhi.
  split; lra.
Qed.

(** On a non-negative dividend [% 1] is the fractional part. *)
Lemma rem_1_nonneg (r : R) : 0 <= r -> rem r 1 = frac_part r.
Proof.
  intros Hr. unfold rem, trunc, frac_part.
  replace (r / 1) with r by field.
  destruct (Rle_dec 0 r) as [_ | Hneg]; [ring | contradiction].
Qed.

Lemma frac_part_succ (r : R) : frac_part (r + 1) = frac_part r.
Proof.
  unfold frac_part.
  assert (H : Int_part (r + 1) = (Int_part r + 1)%Z).
  { symmetry. apply Int_part_spec.
    destruct (base_Int_part r) as [Hle Hgt].
    rewrite plus_IZR. split; lra. }
  rewrite H, plus_IZR. ring.
Qed.

Lemma Int_part_range (r bound : R) :
  0 <= r < bound -> (0 <= Int_part r)%Z /\ IZR (Int_part r) < bound.
Proof.
  intros [Hlo Hhi]. destruct (base_Int_part r) as [Hle Hgt]. split.
  - assert (H : (-1 < Int_part r)%Z) by (apply lt_IZR; lra). lia.
  - lra.
Qed.

Lemma timeConversionFactor_pos (orbitalPeriod : R) :
  0 < orbitalPeriod -> 0 < timeConversionFactor orbitalPeriod.
Proof.
  intros HP. unfold timeConversionFactor, Math_PI.
  pose proof PI_RGT_0 as Hpi.
  apply Rmult_lt_0_compat; [| lra].
  apply Rdiv_lt_0_compat; lra.
Qed.

(** The index in the words of the specification. *)
Lemma pointIndex_formula (now orbitalPeriod : R) (positions : BufferAttribute) :
  0 <= now -> 0 < orbitalPeriod ->
  pointIndex now orbitalPeriod positions =
  Int_part (Spec.fraction (Spec.phase now orbitalPeriod)
            * (IZR (count positions) - 1)).
Proof.
  intros Hnow HP. unfold pointIndex, Math_floor, Spec.fraction.
  pose proof (timeConversionFactor_pos orbitalPeriod HP) as Hrate.
  rewrite rem_1_nonneg by (apply Rmult_le_pos; lra).
  do 2 f_equal. f_equal.
  unfold Spec.phase, timeConversionFactor, Math_PI. ring.
Qed.

(** With at least two stored points the index is below [N - 1]. *)
Lemma pointIndex_range (now orbitalPeriod : R) (positions : BufferAttribute) :
  0 <= now -> 0 < orbitalPeriod -> (2 <= count positions)%Z ->
  (0 <= pointIndex now orbitalPeriod positions < count positions - 1)%Z.
Proof.
  intros Hnow HP HN.
  rewrite pointIndex_formula by assumption.
  unfold Spec.fraction.
  destruct (base_fp (Spec.phase now orbitalPeriod)) as [Hge Hlt].
  assert (H1 : 1 <= IZR (count positions) - 1).
  { apply IZR_le in HN. lra. }
  destruct (Int_part_range
              (frac_part (Spec.phase now orbitalPeriod) * (IZR (count positions) - 1))
              (IZR (count positions) - 1)) as [Hlo Hhi].
  { split; [apply Rmult_le_pos; lra | nra]. }
  split; [exact Hlo |].
  apply lt_IZR. rewrite minus_IZR. exact Hhi.
Qed.

(** On a path stored by [createOrbit] the three reads at the index are
    inside the buffer. *)
Lemma pointIndex_reads (now orbitalPeriod a e inclination lAN aP : R) :
  0 <= now -> 0 < orbitalPeriod ->
  let positions := attr_position (createOrbit a e inclination lAN aP) in
  let index := pointIndex now orbitalPeriod positions in
  exists vx vy vz,
    item positions index = Some (vx, vy, vz) /\
    getX positions index = num vx /\
    getY positions index = num vy /\
    getZ positions index = num vz.
Proof.
  intros Hnow HP positions index.
  assert (HN : (2 <= count positions)%Z).
  { subst positions. rewrite createOrbit_count. lia. }
  pose proof (pointIndex_range now orbitalPeriod positions Hnow HP HN) as Hrange.
  destruct (item_inside positions index) as [[[vx vy] vz] Hitem].
  { subst index. lia. }
  exists vx, vy, vz. unfold getX, getY, getZ. rewrite Hitem.
  repeat split; reflexivity.
Qed.

(** C3. For every non-negative clock reading and every positive orbital
    period, the index that [updateSystemPosition] computes on a path
    stored by [createOrbit] is [floor ((phase mod 1) * (N - 1))] with
    [phase = currentTimeMs * (2 * PI / (orbitalPeriod * 86400)) * 300] and
    [N] the number of stored points; it lies in [[0, N - 1)], and the three
    reads at that index are inside the point sequence. *)
Theorem pointIndex_in_bounds (now orbitalPeriod a e inclination lAN aP : R) :
  0 <= now -> 0 < orbitalPeriod ->
  let positions := attr_position (createOrbit a e inclination lAN aP) in
  let N := count positions in
  let index := pointIndex now orbitalPeriod positions in
  index = Int_part (Spec.fraction (Spec.phase now orbitalPeriod) * (IZR N - 1)) /\
  (0 <= index < N - 1)%Z /\
  exists vx vy vz,
    item positions index = Some (vx, vy, vz) /\
    getX positions index = num vx /\
    getY positions index = num vy /\
    getZ positions index = num vz.
Proof.
  intros Hnow HP positions N index.
  split; [apply pointIndex_formula; assumption |].
  split.
  - apply pointIndex_range; try assumption.
    subst positions. rewrite createOrbit_count. lia.
  - apply pointIndex_reads; assumption.
Qed.

Lemma pointIndex_in_bounds_witness :
  (0 <= 1000 /\ 0 < 36526 / 100) /\
  let positions := attr_position (createOrbit 1 (167086 / 10000000) 0 (-1126064 / 100000) (11420783 / 100000)) in
  let N := count positions in
  let index := pointIndex 1000 (36526 / 100) positions in
  index = Int_part (Spec.fraction (Spec.phase 1000 (36526 / 100)) * (IZR N - 1)) /\
  (0 <= index < N - 1)%Z /\
  exists vx vy vz,
    item positions index = Some (vx, vy, vz) /\
    getX positions index = num vx /\
    getY positions index = num vy /\
    getZ positions index = num vz.
Proof.
  split; [lra |].
  apply (pointIndex_in_bounds 1000 (36526 / 100)); lra.
Defined.

(** ** What one call of [updateSystemPosition] changes *)

Lemma update_orbit (now : R) (system : System) (orbitalPeriod rotationPeriod : R) :
  orbit (updateSystemPosition now system orbitalPeriod rotationPeriod) =
  orbit system.
Proof. unfold updateSystemPosition. destruct (ring system); reflexivity. Qed.

Lemma run_orbit (calls : list call) (system : System) :
  orbit (run calls system) = orbit system.
Proof.
  unfold run. revert system.
  induction calls as [| c calls IH]; intros system; cbn [fold_left].
  - reflexivity.
  - rewrite IH. apply update_orbit.
Qed.

Lemma run_app (calls1 calls2 : list call) (system : System) :
  run (calls1 ++ calls2) system = run calls2 (run calls1 system).
Proof. unfold run. apply fold_left_app. Qed.

(** The position written to the body. *)
Lemma update_planet_position (now : R) (system : System)
    (orbitalPeriod rotationPeriod : R) :
  let positions := attr_position (orbit system) in
  let index := pointIndex now orbitalPeriod positions in
  position (planet (updateSystemPosition now system orbitalPeriod rotationPeriod)) =
  Vector3_set (position (planet system))
    (getX positions index) (getY positions index) (getZ positions index).
Proof. unfold updateSystemPosition. destruct (ring system); reflexivity. Qed.

(** The position written to the ring, when there is one. *)
Lemma update_ring_position (now : R) (system : System)
    (orbitalPeriod rotationPeriod : R) :
  let positions := attr_position (orbit system) in
  let index := pointIndex now orbitalPeriod positions in
  ring (updateSystemPosition now system orbitalPeriod rotationPeriod) =
  option_map
    (fun r =>
       mkMesh (Vector3_set (position r)
                 (getX positions index) (getY positions index) (getZ positions index))
              (rotation r))
    (ring system).
Proof. unfold updateSystemPosition. destruct (ring system); reflexivity. Qed.

(** The spin after one call. *)
Lemma update_spin (now : R) (system : System) (orbitalPeriod rotationPeriod : R) :
  spin (updateSystemPosition now system orbitalPeriod rotationPeriod) =
  match ring system with
  | Some _ => spin system + spinIncrement rotationPeriod + spinIncrement rotationPeriod
  | None => spin system + spinIncrement rotationPeriod
  end.
Proof.
  unfold updateSystemPosition, spin, spinIncrement, Math_PI.
  destruct (ring system); reflexivity.
Qed.

Lemma update_ring_presence (now : R) (system : System)
    (orbitalPeriod rotationPeriod : R) :
  ring (updateSystemPosition now system orbitalPeriod rotationPeriod) = None <->
  ring system = None.
Proof.
  rewrite update_ring_position. destruct (ring system); cbn; split; congruence.
Qed.

Lemma run_ring_presence (calls : list call) (system : System) :
  ring (run calls system) = None <-> ring system = None.
Proof.
  unfold run. revert system.
  induction calls as [| c calls IH]; intros system; cbn [fold_left].
  - reflexivity.
  - rewrite IH. apply update_ring_presence.
Qed.

(** On a path stored by [createOrbit], a valid call writes the vertex at
    the index, whatever the position was before. *)
Lemma update_position_on_path (now orbitalPeriod rotationPeriod : R)
    (system : System) (a e inclination lAN aP : R) :
  0 <= now -> 0 < orbitalPeriod ->
  orbit system = createOrbit a e inclination lAN aP ->
  let positions := attr_position (createOrbit a e inclination lAN aP) in
  let index := pointIndex now orbitalPeriod positions in
  position (planet (updateSystemPosition now system orbitalPeriod rotationPeriod)) =
  mkVector3 (getX positions index) (getY positions index) (getZ positions index).
Proof.
  intros Hnow HP Horbit positions index.
  rewrite update_planet_position, Horbit.
  destruct (pointIndex_reads now orbitalPeriod a e inclination lAN aP Hnow HP)
    as (vx & vy & vz & _ & _ & _ & Hz).
  fold positions index in Hz |- *.
  unfold Vector3_set. rewrite Hz. reflexivity.
Qed.

(** C2. For a fixed clock reading the position written to the body is a
    function of that reading alone: after any earlier calls, with any
    arguments, and whatever rotation period is passed, a call at time
    [now] leaves the body where a first call at time [now] leaves it; in
    particular calling twice with the same reading yields the same
    position.  The body is one whose path [createOrbit] stored, the
    reading is non-negative, as [performance.now()] is, and the orbital
    period is positive. *)
Theorem position_is_function_of_time
    (now orbitalPeriod rotationPeriod rotationPeriod' : R)
    (a e inclination lAN aP : R) (body : Mesh) (rings : option Mesh)
    (history : list call) :
  0 <= now -> 0 < orbitalPeriod ->
  let system := mkSystem body (createOrbit a e inclination lAN aP) rings in
  position (planet (updateSystemPosition now (run history system)
                      orbitalPeriod rotationPeriod)) =
  position (planet (updateSystemPosition now system
                      orbitalPeriod rotationPeriod')) /\
  position (planet (updateSystemPosition now
                      (updateSystemPosition now system orbitalPeriod rotationPeriod)
                      orbitalPeriod rotationPeriod)) =
  position (planet (updateSystemPosition now system
                      orbitalPeriod rotationPeriod)).
Proof.
  intros Hnow HP system.
  assert (Hany : forall s rP,
             orbit s = createOrbit a e inclination lAN aP ->
             position (planet (updateSystemPosition now s orbitalPeriod rP)) =
             position (planet (updateSystemPosition now system orbitalPeriod rotationPeriod'))).
  { intros s rP Hs.
    rewrite (update_position_on_path now orbitalPeriod rP s a e inclination lAN aP)
      by assumption.
    rewrite (update_position_on_path now orbitalPeriod rotationPeriod' system
               a e inclination lAN aP) by (assumption || reflexivity).
    reflexivity. }
  split.
  - apply Hany. rewrite run_orbit. reflexivity.
  - rewrite (Hany (updateSystemPosition now system orbitalPeriod rotationPeriod))
      by (rewrite update_orbit; reflexivity).
    symmetry. apply Hany. reflexivity.
Qed.

Lemma position_is_function_of_time_witness :
  (0 <= 1000 /\ 0 < 36526 / 100) /\
  let system := mkSystem Mesh_new (createOrbit 1 0 0 0 0) None in
  position (planet (updateSystemPosition 1000
                      (run [mkCall 16 (36526 / 100) 1; mkCall 33 (36526 / 100) 1] system)
                      (36526 / 100) 1)) =
  position (planet (updateSystemPosition 1000 system (36526 / 100) (-243))) /\
  position (planet (updateSystemPosition 1000
                      (updateSystemPosition 1000 system (36526 / 100) 1)
                      (36526 / 100) 1)) =
  position (planet (updateSystemPosition 1000 system (36526 / 100) 1)).
Proof.
  split; [lra |].
  apply (position_is_function_of_time 1000 (36526 / 100) 1 (-243) 1 0 0 0 0
           Mesh_new None [mkCall 16 (36526 / 100) 1; mkCall 33 (36526 / 100) 1]); lra.
Defined.

(** C5, as the code has it. For every positive orbital period and every
    non-negative time [t], the index at [t] and the index at
    [t + orbitalPeriod * 86400 / (300 * (2 * PI))] are the same: the
    phase is wrapped modulo 1, so the full cycle is the inverse of the
    rate. *)
Theorem pointIndex_periodic (t orbitalPeriod : R) (positions : BufferAttribute) :
  0 <= t -> 0 < orbitalPeriod ->
  pointIndex (t + orbitalPeriod * 86400 / (300 * (2 * PI))) orbitalPeriod positions =
  pointIndex t orbitalPeriod positions.
Proof.
  intros Ht HP. unfold pointIndex.
  pose proof (timeConversionFactor_pos orbitalPeriod HP) as Hrate.
  pose proof PI_RGT_0 as Hpi.
  assert (Hcycle : 0 < orbitalPeriod * 86400 / (300 * (2 * PI))).
  { apply Rdiv_lt_0_compat; lra. }
  assert (Hstep :
            (t + orbitalPeriod * 86400 / (300 * (2 * PI)))
            * timeConversionFactor orbitalPeriod =
            t * timeConversionFactor orbitalPeriod + 1).
  { unfold timeConversionFactor, Math_PI. field. split; lra. }
  rewrite !rem_1_nonneg.
  - rewrite Hstep, frac_part_succ. reflexivity.
  - apply Rmult_le_pos; lra.
  - apply Rmult_le_pos; lra.
Qed.

Lemma pointIndex_periodic_witness :
  (0 <= 1000 /\ 0 < 36526 / 100) /\
  pointIndex (1000 + 36526 / 100 * 86400 / (300 * (2 * PI))) (36526 / 100)
    (attr_position (createOrbit 1 0 0 0 0)) =
  pointIndex 1000 (36526 / 100) (attr_position (createOrbit 1 0 0 0 0)).
Proof.
  split; [lra |].
  apply (pointIndex_periodic 1000 (36526 / 100)); lra.
Defined.

(** C5, as stated, fails: for a body of orbital period 1 on a path of
    [createOrbit], the index at time 0 is 0 and the index at time
    [0 + 1 * 86400 / 300 * (2 * PI)] is not; the phase there is
    [4 * PI * PI], which is not a whole number. *)
Lemma full_cycle_times_2PI_counterexample :
  let positions := attr_position (createOrbit 1 0 0 0 0) in
  0 < 1 /\
  pointIndex 0 1 positions = 0%Z /\
  pointIndex (0 + 1 * 86400 / 300 * (2 * PI)) 1 positions <> pointIndex 0 1 positions.
Proof.
  intros positions.
  pose proof PI_bounds as [Hlo Hhi].
  assert (H0 : pointIndex 0 1 positions = 0%Z).
  { unfold pointIndex, Math_floor.
    rewrite rem_1_nonneg by lra.
    rewrite Rmult_0_l, fp_R0, Rmult_0_l.
    symmetry. apply Int_part_spec. simpl. lra. }
  split; [lra |]. split; [exact H0 |].
  rewrite H0. unfold pointIndex, Math_floor.
  assert (Hphase :
            (0 + 1 * 86400 / 300 * (2 * PI)) * timeConversionFactor 1 = 4 * PI * PI).
  { unfold timeConversionFactor, Math_PI. field. }
  rewrite Hphase.
  assert (Hq : 39 < 4 * PI * PI < 40) by (split; nra).
  rewrite rem_1_nonneg by lra.
  assert (Hint : Int_part (4 * PI * PI) = 39%Z).
  { symmetry. apply Int_part_spec. split; lra. }
  unfold frac_part. rewrite Hint.
  subst positions. rewrite createOrbit_count.
  assert (Hbig : 1 <= (4 * PI * PI - 39) * (50001 - 1)) by nra.
  destruct (base_Int_part ((4 * PI * PI - 39) * (50001 - 1))) as [_ Hgt].
  intros Habs. rewrite Habs in Hgt. simpl in Hgt. lra.
Qed.

(** ** Spin *)

Lemma spinIncrement_pos (rotationPeriod : R) :
  0 < rotationPeriod -> 0 < spinIncrement rotationPeriod.
Proof.
  intros HR. unfold spinIncrement. pose proof PI_RGT_0 as Hpi.
  assert (H : 0 < 2 * PI / rotationPeriod) by (apply Rdiv_lt_0_compat; lra).
  apply Rmult_lt_0_compat; [apply Rmult_lt_0_compat |]; lra.
Qed.

Lemma spinIncrement_neg (rotationPeriod : R) :
  rotationPeriod < 0 -> spinIncrement rotationPeriod < 0.
Proof.
  intros HR. pose proof (spinIncrement_pos (- rotationPeriod)) as Hpos.
  assert (Hopp : spinIncrement (- rotationPeriod) = - spinIncrement rotationPeriod).
  { unfold spinIncrement. field. lra. }
  rewrite Hopp in Hpos. lra.
Qed.

(** The spin of a ringless body after a sequence of frames. *)
Lemma frames_spin_ringless (orbitalPeriod rotationPeriod : R) (times : list R)
    (system : System) :
  ring system = None ->
  spin (frames orbitalPeriod rotationPeriod times system) =
  spin system + INR (length times) * spinIncrement rotationPeriod.
Proof.
  unfold frames, run. revert system.
  induction times as [| now times IH]; intros system Hring.
  - cbn. ring.
  - cbn [map fold_left call_now call_orbitalPeriod call_rotationPeriod].
    rewrite IH by (apply update_ring_presence; exact Hring).
    rewrite update_spin, Hring.
    change (length (now :: times)) with (S (length times)).
    rewrite S_INR. ring.
Qed.

Lemma frames_app (orbitalPeriod rotationPeriod : R) (times more : list R)
    (system : System) :
  frames orbitalPeriod rotationPeriod (times ++ more) system =
  frames orbitalPeriod rotationPeriod more
    (frames orbitalPeriod rotationPeriod times system).
Proof. unfold frames. rewrite map_app. apply run_app. Qed.

Lemma frames_ring_presence (orbitalPeriod rotationPeriod : R) (times : list R)
    (system : System) :
  ring (frames orbitalPeriod rotationPeriod times system) = None <->
  ring system = None.
Proof. unfold frames. apply run_ring_presence. Qed.

(** C6. For a ringless body every call adds exactly
    [(2 * PI / rotationPeriod) * 0.1 * (PI / 180)] to the spin angle; so
    along any sequence of frames the spin angle after further calls is
    strictly greater when the rotation period is positive, and strictly
    smaller (retrograde) when it is negative. *)
Theorem spin_ringless_monotone (system : System)
    (orbitalPeriod rotationPeriod now : R) (times more : list R) :
  ring system = None -> more <> [] ->
  let before := spin (frames orbitalPeriod rotationPeriod times system) in
  let after := spin (frames orbitalPeriod rotationPeriod (times ++ more) system) in
  spin (updateSystemPosition now system orbitalPeriod rotationPeriod) =
  spin system + (2 * PI / rotationPeriod) * 0.1 * (PI / 180) /\
  (0 < rotationPeriod -> before < after) /\
  (rotationPeriod < 0 -> after < before).
Proof.
  intros Hring Hmore before after. split.
  - rewrite update_spin, Hring. reflexivity.
  - subst before after.
    rewrite frames_app.
    rewrite (frames_spin_ringless orbitalPeriod rotationPeriod more)
      by (apply frames_ring_presence; exact Hring).
    assert (Hlen : 1 <= INR (length more)).
    { destruct more as [| t more']; [contradiction |].
      change (length (t :: more')) with (S (length more')).
      rewrite S_INR. pose proof (pos_INR (length more')). lra. }
    split; intros HR.
    + pose proof (spinIncrement_pos rotationPeriod HR). nra.
    + pose proof (spinIncrement_neg rotationPeriod HR). nra.
Qed.

Lemma spin_ringless_monotone_witness :
  let venus := mkSystem Mesh_new (createOrbit 1 0 0 0 0) None in
  let earth := mkSystem Mesh_new (createOrbit 1 0 0 0 0) None in
  (ring venus = None /\ [33; 50] <> @nil R) /\
  (spin (updateSystemPosition 16 venus (2247 / 10) (-243)) =
   spin venus + (2 * PI / (-243)) * 0.1 * (PI / 180) /\
   spin (frames (2247 / 10) (-243) ([16] ++ [33; 50]) venus) <
   spin (frames (2247 / 10) (-243) [16] venus)) /\
  (spin (updateSystemPosition 16 earth (36526 / 100) 1) =
   spin earth + (2 * PI / 1) * 0.1 * (PI / 180) /\
   spin (frames (36526 / 100) 1 [16] earth) <
   spin (frames (36526 / 100) 1 ([16] ++ [33; 50]) earth)).
Proof.
  intros venus earth.
  assert (Hring : ring venus = None) by reflexivity.
  assert (Hmore : [33; 50] <> @nil R) by discriminate.
  split; [split; assumption |]. split.
  - destruct (spin_ringless_monotone venus (2247 / 10) (-243) 16 [16] [33; 50]
                Hring Hmore) as (Hstep & _ & Hdown).
    split; [exact Hstep | apply Hdown; lra].
  - destruct (spin_ringless_monotone earth (36526 / 100) 1 16 [16] [33; 50]
                Hring Hmore) as (Hstep & Hup & _).
    split; [exact Hstep | apply Hup; lra].
Defined.

(** C7. For a body that owns a ring every call adds the spin increment
    twice; for a body without a ring every call adds it once. *)
Theorem spin_increments_per_call (now : R) (system : System)
    (orbitalPeriod rotationPeriod : R) :
  let spinRate := (2 * PI) / rotationPeriod * 0.1 in
  let system' := updateSystemPosition now system orbitalPeriod rotationPeriod in
  match ring system with
  | Some _ => spin system' = spin system + spinRate * (PI / 180) + spinRate * (PI / 180)
  | None => spin system' = spin system + spinRate * (PI / 180)
  end.
Proof.
  intros spinRate system'. subst spinRate system'.
  rewrite update_spin. destruct (ring system); reflexivity.
Qed.

(** ** The ring follows the body *)

Lemma update_mirror (now : R) (system : System) (orbitalPeriod rotationPeriod : R) :
  (forall r, ring system = Some r -> position r = position (planet system)) ->
  forall r',
    ring (updateSystemPosition now system orbitalPeriod rotationPeriod) = Some r' ->
    position r' =
    position (planet (updateSystemPosition now system orbitalPeriod rotationPeriod)).
Proof.
  intros Hmirror r'.
  rewrite update_planet_position, update_ring_position.
  destruct (ring system) as [r |]; cbn [option_map]; [| discriminate].
  intros Heq. injection Heq as <-. cbn [position].
  rewrite (Hmirror r eq_refl). reflexivity.
Qed.

Lemma run_mirror (calls : list call) (system : System) :
  (forall r, ring system = Some r -> position r = position (planet system)) ->
  forall r', ring (run calls system) = Some r' ->
             position r' = position (planet (run calls system)).
Proof.
  unfold run. revert system.
  induction calls as [| c calls IH]; intros system Hmirror; cbn [fold_left].
  - exact Hmirror.
  - apply IH. apply update_mirror. exact Hmirror.
Qed.

(** C8. For every body created with a ring, after any earlier calls and
    for every clock reading, when [updateSystemPosition] completes the
    position of the ring is the position of the body. *)
Theorem ring_mirrors_body (name : string) (radius : R)
    (orbitParameters : OrbitParameters) (axialTilt : R) (ringRadii : RingRadii)
    (history : list call) (now orbitalPeriod rotationPeriod : R) :
  let system :=
    run history (createPlanet name radius orbitParameters axialTilt (Some ringRadii)) in
  let system' := updateSystemPosition now system orbitalPeriod rotationPeriod in
  exists ring',
    ring system' = Some ring' /\ position ring' = position (planet system').
Proof.
  intros system system'.
  destruct (ring system') as [ring' |] eqn:Hring'.
  - exists ring'. split; [reflexivity |].
    subst system'. apply update_mirror; [| exact Hring'].
    subst system. apply run_mirror.
    cbn. intros r Hr. injection Hr as <-. reflexivity.
  - exfalso. subst system' system.
    apply update_ring_presence, run_ring_presence in Hring'.
    discriminate Hring'.
Qed.

(** C10. A call of [updateSystemPosition], on any system and at any
    clock reading, leaves the stored path of the orbit as it was, and with
    it everything but the position of the body, the spin angle of the
    body and the position of the ring: the rotations of the body about x
    and z, the presence of the ring and the three rotation angles of the
    ring are unchanged. *)
Theorem update_frame (now : R) (system : System)
    (orbitalPeriod rotationPeriod : R) :
  let system' := updateSystemPosition now system orbitalPeriod rotationPeriod in
  orbit system' = orbit system /\
  ex (rotation (planet system')) = ex (rotation (planet system)) /\
  ez (rotation (planet system')) = ez (rotation (planet system)) /\
  option_map rotation (ring system') = option_map rotation (ring system) /\
  exists p s q,
    system' =
    mkSystem (mkMesh p (mkEuler (ex (rotation (planet system))) s
                                (ez (rotation (planet system)))))
             (orbit system)
             (option_map (fun r => mkMesh q (rotation r)) (ring system)).
Proof.
  intros system'. subst system'. unfold updateSystemPosition.
  destruct (ring system) as [r |];
    unfold add_rotation_y, set_position;
    cbn [orbit planet ring position rotation option_map ex ey ez];
    (do 4 (split; [reflexivity |])).
  - do 3 eexists. reflexivity.
  - eexists. eexists. exists Vector3_new. reflexivity.
Qed.

(** ** Further properties of the orbit path *)

Lemma cos_turn (r : R) : cos (r + 2 * PI) = cos r.
Proof. rewrite cos_plus, cos_2PI, sin_2PI. ring. Qed.

Lemma sin_turn (r : R) : sin (r + 2 * PI) = sin r.
Proof. rewrite sin_plus, cos_2PI, sin_2PI. ring. Qed.

Lemma cos_sin_square (r : R) : cos r * cos r + sin r * sin r = 1.
Proof. pose proof (sin2_cos2 r) as H. unfold Rsqr in H. lra. Qed.

(** Both rotations keep the distance to the origin. *)
Lemma norm2_rotateAboutX (alpha : R) (p : R * R * R) :
  norm2 (Spec.rotateAboutX alpha p) = norm2 p.
Proof.
  destruct p as [[px py] pz]. unfold norm2, Spec.rotateAboutX.
  pose proof (cos_sin_square alpha) as H.
  transitivity
    (px * px + (py * py + pz * pz) * (cos alpha * cos alpha + sin alpha * sin alpha));
    [ring | rewrite H; ring].
Qed.

Lemma norm2_rotateAboutY (beta : R) (p : R * R * R) :
  norm2 (Spec.rotateAboutY beta p) = norm2 p.
Proof.
  destruct p as [[px py] pz]. unfold norm2, Spec.rotateAboutY.
  pose proof (cos_sin_square beta) as H.
  transitivity
    (py * py + (px * px + pz * pz) * (cos beta * cos beta + sin beta * sin beta));
    [ring | rewrite H; ring].
Qed.

Lemma norm2_orbitPoint (a e inclination lAN aP theta : R) :
  norm2 (Spec.orbitPoint a e inclination lAN aP theta) =
  (100 * a) * (100 * a) * (cos theta * cos theta)
  + (100 * Spec.semiMinorAxis a e) * (100 * Spec.semiMinorAxis a e)
    * (sin theta * sin theta).
Proof.
  unfold Spec.orbitPoint.
  rewrite norm2_rotateAboutY, norm2_rotateAboutX.
  unfold norm2, Spec.embed, Spec.rotateInPlane, Spec.ellipsePoint.
  cbv beta iota delta [fst snd].
  pose proof (cos_sin_square (Spec.radians aP)) as H.
  set (c := cos (Spec.radians aP)) in *. set (s := sin (Spec.radians aP)) in *.
  set (u := 100 * a * cos theta). set (v := 100 * Spec.semiMinorAxis a e * sin theta).
  transitivity ((u * u + v * v) * (c * c + s * s));
    [ring | rewrite H; subst u v; ring].
Qed.


(** X2. The path is symmetric about the origin: the vertex half a turn
    further, 25000 places on, is the opposite point.  The Sun, at the
    origin, is at the centre of the ellipse. *)
Theorem createOrbit_central_symmetry (a e inclination lAN aP : R) (d : Z) :
  (0 <= d <= 25000)%Z ->
  let positions := attr_position (createOrbit a e inclination lAN aP) in
  exists vx vy vz,
    item positions d = Some (vx, vy, vz) /\
    item positions (d + 25000) = Some (- vx, - vy, - vz).
Proof.
  intros Hd positions. subst positions.
  rewrite !createOrbit_item by lia.
  replace (2 * PI * (IZR (d + 25000) / IZR 50000))
    with (2 * PI * (IZR d / IZR 50000) + PI)
    by (rewrite plus_IZR; field).
  set (theta := 2 * PI * (IZR d / IZR 50000)).
  unfold Spec.orbitPoint, Spec.rotateAboutY, Spec.rotateAboutX, Spec.embed,
    Spec.rotateInPlane, Spec.ellipsePoint.
  cbn [fst snd]. rewrite neg_cos, neg_sin.
  do 3 eexists. split; [reflexivity |].
  f_equal. f_equal; [f_equal |]; ring.
Qed.

Lemma createOrbit_central_symmetry_witness :
  (0 <= 12500 <= 25000)%Z /\
  let positions := attr_position (createOrbit 1 (1 / 2) 7 48 29) in
  exists vx vy vz,
    item positions 12500 = Some (vx, vy, vz) /\
    item positions (12500 + 25000) = Some (- vx, - vy, - vz).
Proof.
  split; [lia |].
  apply (createOrbit_central_symmetry 1 (1 / 2) 7 48 29 12500). lia.
Defined.

(** X3. For an eccentricity between 0 and 1 every stored vertex lies
    between the two spheres about the origin whose radii are the scaled
    semi-minor and semi-major axes: its squared distance to the origin is
    at least [(100 a)^2 (1 - e^2)] and at most [(100 a)^2]; for [e = 0]
    the two bounds meet and the path is a circle of radius [100 a]. *)
Theorem createOrbit_between_axes (a e inclination lAN aP : R) :
  0 <= e <= 1 ->
  Forall (fun v : vertex =>
            (100 * a) * (100 * a) * (1 - e * e) <= norm2 v <= (100 * a) * (100 * a))
         (array (attr_position (createOrbit a e inclination lAN aP))).
Proof.
  intros He.
  rewrite createOrbit_array. apply Forall_map, Forall_forall. intros d _.
  rewrite norm2_orbitPoint. unfold Spec.semiMinorAxis.
  set (theta := 2 * PI * (IZR d / IZR 50000)).
  pose proof (cos_sin_square theta) as H.
  assert (Hroot : sqrt (1 - e * e) * sqrt (1 - e * e) = 1 - e * e)
    by (apply sqrt_sqrt; nra).
  set (r := sqrt (1 - e * e)) in *.
  set (c2 := cos theta * cos theta) in *.
  set (s2 := sin theta * sin theta) in *.
  assert (Hs2 : 0 <= s2) by (subst s2; nra).
  assert (Hc2 : 0 <= c2) by (subst c2; nra).
  assert (Ha2 : 0 <= (100 * a) * (100 * a)) by nra.
  assert (Hee : 0 <= e * e <= 1) by nra.
  replace (100 * a * (100 * a) * c2 + 100 * (a * r) * (100 * (a * r)) * s2)
    with ((100 * a) * (100 * a) * (c2 + (r * r) * s2)) by ring.
  rewrite Hroot.
  replace c2 with (1 - s2) by lra.
  assert (Hs21 : s2 <= 1) by lra.
  split.
  - apply Rmult_le_compat_l; [exact Ha2 | nra].
  - rewrite <- (Rmult_1_r (100 * a * (100 * a))) at 2.
    apply Rmult_le_compat_l; [exact Ha2 | nra].
Qed.

Lemma createOrbit_between_axes_witness :
  0 <= 0 <= 1 /\
  Forall (fun v : vertex =>
            (100 * 1) * (100 * 1) * (1 - 0 * 0) <= norm2 v <= (100 * 1) * (100 * 1))
         (array (attr_position (createOrbit 1 0 7 48 29))).
Proof.
  split; [lra |].
  apply (createOrbit_between_axes 1 0 7 48 29). lra.
Defined.

Lemma radians_turn (d : R) : Spec.radians (d + 360) = Spec.radians d + 2 * PI.
Proof. unfold Spec.radians. field. Qed.

Lemma createOrbit_ext (a e inclination lAN aP a' e' inclination' lAN' aP' : R) :
  (forall theta,
     Spec.orbitPoint a e inclination lAN aP theta =
     Spec.orbitPoint a' e' inclination' lAN' aP' theta) ->
  createOrbit a e inclination lAN aP = createOrbit a' e' inclination' lAN' aP'.
Proof.
  intros Hpoint.
  pose proof (createOrbit_array a e inclination lAN aP) as H1.
  pose proof (createOrbit_array a' e' inclination' lAN' aP') as H2.
  destruct (createOrbit a e inclination lAN aP) as [[arr1]].
  destruct (createOrbit a' e' inclination' lAN' aP') as [[arr2]].
  cbn [attr_position array] in H1, H2. subst arr1 arr2.
  do 2 f_equal. apply map_ext. intros d. apply Hpoint.
Qed.

(** X4. The three angles are taken modulo a full turn: adding 360
    degrees to the inclination, to the longitude of the ascending node or
    to the argument of periapsis gives the same path. *)
Theorem createOrbit_angles_modulo_360 (a e inclination lAN aP : R) :
  createOrbit a e (inclination + 360) lAN aP = createOrbit a e inclination lAN aP /\
  createOrbit a e inclination (lAN + 360) aP = createOrbit a e inclination lAN aP /\
  createOrbit a e inclination lAN (aP + 360) = createOrbit a e inclination lAN aP.
Proof.
  repeat apply conj; apply createOrbit_ext; intros theta; unfold Spec.orbitPoint.
  - rewrite radians_turn.
    replace (Spec.radians inclination + 2 * PI - PI / 2)
      with (Spec.radians inclination - PI / 2 + 2 * PI) by ring.
    unfold Spec.rotateAboutX.
    destruct (Spec.embed _) as [[px py] pz].
    rewrite cos_turn, sin_turn. reflexivity.
  - rewrite radians_turn. unfold Spec.rotateAboutY.
    destruct (Spec.rotateAboutX _ _) as [[px py] pz].
    rewrite cos_turn, sin_turn. reflexivity.
  - rewrite radians_turn. unfold Spec.rotateInPlane.
    rewrite cos_turn, sin_turn. reflexivity.
Qed.

(** X5. At eccentricity 1 the semi-minor axis is 0 and the path folds
    onto a segment through the origin: the vertex at index [d] is the
    first vertex scaled by [cos (2 PI d / 50000)]. *)
Theorem createOrbit_eccentricity_one_segment (a inclination lAN aP : R) (d : Z) :
  (0 <= d <= 50000)%Z ->
  let positions := attr_position (createOrbit a 1 inclination lAN aP) in
  let c := cos (2 * PI * (IZR d / IZR 50000)) in
  exists x0 y0 z0,
    item positions 0 = Some (x0, y0, z0) /\
    item positions d = Some (c * x0, c * y0, c * z0).
Proof.
  intros Hd positions c. subst positions c.
  rewrite !createOrbit_item by lia.
  replace (2 * PI * (IZR 0 / IZR 50000)) with 0 by (field; lra).
  set (theta := 2 * PI * (IZR d / IZR 50000)).
  unfold Spec.orbitPoint, Spec.rotateAboutY, Spec.rotateAboutX, Spec.embed,
    Spec.rotateInPlane, Spec.ellipsePoint, Spec.semiMinorAxis.
  cbn [fst snd].
  replace (1 - 1 * 1) with 0 by ring.
  rewrite sqrt_0, cos_0, sin_0.
  do 3 eexists. split; [reflexivity |].
  f_equal. f_equal; [f_equal |]; ring.
Qed.

Lemma createOrbit_eccentricity_one_segment_witness :
  (0 <= 12500 <= 50000)%Z /\
  let positions := attr_position (createOrbit 1 1 7 48 29) in
  let c := cos (2 * PI * (IZR 12500 / IZR 50000)) in
  exists x0 y0 z0,
    item positions 0 = Some (x0, y0, z0) /\
    item positions 12500 = Some (c * x0, c * y0, c * z0).
Proof.
  split; [lia |].
  apply (createOrbit_eccentricity_one_segment 1 7 48 29 12500). lia.
Defined.

(** ** Further properties of the orbital clock *)


Lemma Int_part_le (r s : R) : r <= s -> (Int_part r <= Int_part s)%Z.
Proof.
  intros Hrs.
  destruct (base_Int_part r) as [Hr _]. destruct (base_Int_part s) as [_ Hs].
  assert (H : (Int_part r < Int_part s + 1)%Z).
  { apply lt_IZR. rewrite plus_IZR. lra. }
  lia.
Qed.

Lemma frac_part_unit (r : R) : 0 <= r < 1 -> frac_part r = r.
Proof.
  intros Hr. unfold frac_part.
  assert (H : Int_part r = 0%Z) by (symmetry; apply Int_part_spec; simpl; lra).
  rewrite H. simpl. ring.
Qed.

Lemma frac_part_shift (r : R) (n : nat) : frac_part (r + INR n) = frac_part r.
Proof.
  induction n as [| n IH].
  - simpl. rewrite Rplus_0_r. reflexivity.
  - rewrite S_INR, <- Rplus_assoc, frac_part_succ. exact IH.
Qed.

(** X6. Only the ratio of the clock reading to the orbital period
    matters: with the reading and the period both multiplied by the same
    non-zero factor the index is the same.  The bodies keep their
    relative orbital periods. *)
Theorem pointIndex_same_ratio (k now orbitalPeriod : R) (positions : BufferAttribute) :
  k <> 0 -> orbitalPeriod <> 0 ->
  pointIndex (k * now) (k * orbitalPeriod) positions =
  pointIndex now orbitalPeriod positions.
Proof.
  intros Hk HP. unfold pointIndex.
  replace (k * now * timeConversionFactor (k * orbitalPeriod))
    with (now * timeConversionFactor orbitalPeriod);
    [reflexivity |].
  unfold timeConversionFactor. field. split; assumption.
Qed.

Lemma pointIndex_same_ratio_witness :
  (1000 <> 0 /\ 36526 / 100 <> 0) /\
  pointIndex (1000 * 16) (1000 * (36526 / 100)) (attr_position (createOrbit 1 0 0 0 0)) =
  pointIndex 16 (36526 / 100) (attr_position (createOrbit 1 0 0 0 0)).
Proof.
  split; [split; lra |].
  apply (pointIndex_same_ratio 1000 16 (36526 / 100)); lra.
Defined.



(** X8. Within one cycle the body only moves forward along the path:
    for two clock readings [t1 <= t2] of the same cycle, the cycle being
    [orbitalPeriod * 86400 / (300 * (2 * PI))] long, the index at [t1] is
    at most the index at [t2]. *)
Theorem pointIndex_monotone_in_cycle (t1 t2 orbitalPeriod : R) (n : nat)
    (positions : BufferAttribute) :
  0 < orbitalPeriod -> (1 <= count positions)%Z ->
  let cycle := orbitalPeriod * 86400 / (300 * (2 * PI)) in
  INR n * cycle <= t1 -> t1 <= t2 -> t2 < (INR n + 1) * cycle ->
  (pointIndex t1 orbitalPeriod positions <= pointIndex t2 orbitalPeriod positions)%Z.
Proof.
  intros HP HN cycle Hlo H12 Hhi.
  pose proof (timeConversionFactor_pos orbitalPeriod HP) as Hrate.
  pose proof PI_RGT_0 as Hpi.
  assert (Hcycle : cycle * timeConversionFactor orbitalPeriod = 1).
  { unfold cycle, timeConversionFactor, Math_PI. field. split; lra. }
  assert (Hn : 0 <= INR n) by apply pos_INR.
  assert (Hc : 0 < cycle) by (unfold cycle; apply Rdiv_lt_0_compat; lra).
  assert (N1 : 0 <= IZR (count positions) - 1) by (apply IZR_le in HN; lra).
  assert (Hin : forall t, INR n * cycle <= t -> t < (INR n + 1) * cycle ->
                  0 <= t * timeConversionFactor orbitalPeriod /\
                  frac_part (t * timeConversionFactor orbitalPeriod) =
                  t * timeConversionFactor orbitalPeriod - INR n).
  { intros t Ht1 Ht2.
    set (rate := timeConversionFactor orbitalPeriod) in *.
    assert (H1 : INR n <= t * rate).
    { replace (INR n) with (INR n * (cycle * rate)) by (rewrite Hcycle; ring).
      rewrite <- Rmult_assoc. apply Rmult_le_compat_r; lra. }
    assert (H2 : t * rate < INR n + 1).
    { replace (INR n + 1) with ((INR n + 1) * (cycle * rate)) by (rewrite Hcycle; ring).
      rewrite <- Rmult_assoc. apply Rmult_lt_compat_r; lra. }
    split; [lra |].
    replace (t * rate) with (t * rate - INR n + INR n) at 1 by ring.
    rewrite frac_part_shift. apply frac_part_unit. lra. }
  destruct (Hin t1 Hlo ltac:(lra)) as [Hp1 Hf1].
  destruct (Hin t2 ltac:(lra) Hhi) as [Hp2 Hf2].
  unfold pointIndex, Math_floor.
  rewrite !rem_1_nonneg by assumption.
  rewrite Hf1, Hf2.
  apply Int_part_le. apply Rmult_le_compat_r; [exact N1 |].
  assert (t1 * timeConversionFactor orbitalPeriod
          <= t2 * timeConversionFactor orbitalPeriod)
    by (apply Rmult_le_compat_r; lra).
  lra.
Qed.

Lemma pointIndex_monotone_in_cycle_witness :
  let positions := attr_position (createOrbit 1 0 0 0 0) in
  let cycle := 1 * 86400 / (300 * (2 * PI)) in
  (0 < 1 /\ (1 <= count positions)%Z /\
   INR 0 * cycle <= 0 /\ 0 <= 1 /\ 1 < (INR 0 + 1) * cycle) /\
  (pointIndex 0 1 positions <= pointIndex 1 1 positions)%Z.
Proof.
  intros positions cycle.
  pose proof PI_RGT_0 as Hpi. pose proof PI_4 as Hpi4.
  assert (HN : (1 <= count positions)%Z).
  { subst positions. rewrite createOrbit_count. lia. }
  assert (Hc : 1 < cycle).
  { unfold cycle. apply Rmult_lt_reg_r with (300 * (2 * PI)); [lra |].
    replace (1 * 86400 / (300 * (2 * PI)) * (300 * (2 * PI))) with 86400
      by (field; lra).
    lra. }
  assert (H0 : INR 0 * cycle <= 0) by (simpl; lra).
  assert (H1 : 1 < (INR 0 + 1) * cycle) by (simpl; lra).
  split; [repeat split; try assumption; lra |].
  apply (pointIndex_monotone_in_cycle 0 1 1 0 positions);
    [lra | exact HN | exact H0 | lra | exact H1].
Defined.

(** ** Calls outside the valid inputs *)

(** For a negative phase [% 1] is minus the fractional part of the
    opposite. *)
Lemma rem_1_negative (r : R) : r < 0 -> rem r 1 = - frac_part (- r).
Proof.
  intros Hr. unfold rem, trunc, frac_part.
  replace (r / 1) with r by field.
  destruct (Rle_dec 0 r) as [Hpos | _]; [lra |].
  rewrite opp_IZR. ring.
Qed.

(** X9. Nothing guards the index.  With a negative phase that is not a
    whole number, as a negative orbital period gives, the index is
    negative, the three reads fall outside the buffer, and the call
    leaves [undefined] in the [x] and [y] of the body's position; [z]
    keeps the value it had. *)
Theorem update_negative_phase_writes_undefined (now : R) (system : System)
    (orbitalPeriod rotationPeriod : R) :
  let positions := attr_position (orbit system) in
  let time := now * timeConversionFactor orbitalPeriod in
  time < 0 -> rem time 1 <> 0 -> (2 <= count positions)%Z ->
  (pointIndex now orbitalPeriod positions < 0)%Z /\
  position (planet (updateSystemPosition now system orbitalPeriod rotationPeriod)) =
  mkVector3 undefined undefined (z (position (planet system))).
Proof.
  intros positions time Hneg Hrem HN.
  assert (Hindex : (pointIndex now orbitalPeriod positions < 0)%Z).
  { unfold pointIndex, Math_floor. fold time.
    rewrite rem_1_negative in Hrem |- * by exact Hneg.
    destruct (base_fp (- time)) as [Hge Hlt].
    assert (Hfrac : 0 < frac_part (- time)) by lra.
    assert (H1 : 1 <= IZR (count positions) - 1) by (apply IZR_le in HN; lra).
    destruct (base_Int_part (- frac_part (- time) * (IZR (count positions) - 1)))
      as [Hle _].
    apply lt_IZR. nra. }
  split; [exact Hindex |].
  rewrite update_planet_position. fold positions.
  unfold getX, getY, getZ, item.
  destruct (Z.ltb_spec (pointIndex now orbitalPeriod positions) 0) as [_ | Hge];
    [reflexivity | lia].
Qed.

Lemma update_negative_phase_writes_undefined_witness :
  let system := mkSystem Mesh_new (createOrbit 1 0 0 0 0) None in
  let positions := attr_position (orbit system) in
  let time := 1 * timeConversionFactor (-1) in
  (time < 0 /\ rem time 1 <> 0 /\ (2 <= count positions)%Z) /\
  (pointIndex 1 (-1) positions < 0)%Z /\
  position (planet (updateSystemPosition 1 system (-1) 1)) =
  mkVector3 undefined undefined (z (position (planet system))).
Proof.
  intros system positions time.
  pose proof PI_bounds as [Hlo Hhi].
  assert (Htime : time = - (PI / 144)).
  { unfold time, timeConversionFactor, Math_PI. field. }
  assert (Hneg : time < 0) by lra.
  assert (Hrem : rem time 1 <> 0).
  { rewrite rem_1_negative by exact Hneg.
    rewrite frac_part_unit by lra. lra. }
  assert (HN : (2 <= count positions)%Z).
  { subst positions system. cbn [orbit]. rewrite createOrbit_count. lia. }
  split; [repeat split; assumption |].
  apply (update_negative_phase_writes_undefined 1 system (-1) 1 Hneg Hrem HN).
Defined.

(** ** Systems built by [createPlanet] *)

Lemma createPlanet_orbit (name : string) (radius : R)
    (orbitParameters : OrbitParameters) (axialTilt : R)
    (ringRadii : option RingRadii) :
  orbit (createPlanet name radius orbitParameters axialTilt ringRadii) =
  createOrbit (a orbitParameters) (e orbitParameters) (i orbitParameters)
              (lAN orbitParameters) (aP orbitParameters).
Proof. unfold createPlanet. destruct ringRadii; reflexivity. Qed.

Lemma update_rotations_kept (now : R) (system : System)
    (orbitalPeriod rotationPeriod : R) :
  let system' := updateSystemPosition now system orbitalPeriod rotationPeriod in
  ex (rotation (planet system')) = ex (rotation (planet system)) /\
  ez (rotation (planet system')) = ez (rotation (planet system)) /\
  option_map rotation (ring system') = option_map rotation (ring system).
Proof.
  unfold updateSystemPosition.
  destruct (ring system); repeat apply conj; reflexivity.
Qed.

(** X10. The tilt set at creation is never disturbed: after any
    sequence of calls the body's rotation about x is still the axial tilt
    in radians and its rotation about z is still 0, and a ring still has
    the rotation [createPlanet] gave it, a quarter turn more than the
    tilt about x and nothing about y and z. *)
Theorem createPlanet_tilt_kept (name : string) (radius : R)
    (orbitParameters : OrbitParameters) (axialTilt : R)
    (ringRadii : option RingRadii) (history : list call) :
  let system :=
    run history (createPlanet name radius orbitParameters axialTilt ringRadii) in
  ex (rotation (planet system)) = degToRad axialTilt /\
  ez (rotation (planet system)) = 0 /\
  option_map rotation (ring system) =
  option_map (fun _ => mkEuler (PI / 2 + degToRad axialTilt) 0 0) ringRadii.
Proof.
  intros system. subst system.
  assert (Hkept : forall calls s,
             ex (rotation (planet (run calls s))) = ex (rotation (planet s)) /\
             ez (rotation (planet (run calls s))) = ez (rotation (planet s)) /\
             option_map rotation (ring (run calls s)) = option_map rotation (ring s)).
  { unfold run. induction calls as [| c calls IH]; intros s; cbn [fold_left].
    - repeat apply conj; reflexivity.
    - destruct (IH (updateSystemPosition (call_now c) s
                      (call_orbitalPeriod c) (call_rotationPeriod c)))
        as (Hx & Hz & Hr).
      destruct (update_rotations_kept (call_now c) s
                  (call_orbitalPeriod c) (call_rotationPeriod c))
        as (Hx' & Hz' & Hr').
      rewrite Hx, Hz, Hr. repeat apply conj; assumption. }
  destruct (Hkept history
              (createPlanet name radius orbitParameters axialTilt ringRadii))
    as (Hx & Hz & Hr).
  rewrite Hx, Hz, Hr. unfold createPlanet, setTilt, createRing, Mesh_new.
  destruct ringRadii as [radii |];
    cbn [planet ring rotation option_map ex ey ez];
    (split; [apply Rplus_0_l |]); (split; [reflexivity |]);
    [| reflexivity].
  do 2 f_equal. unfold degToRad, Math_PI. lra.
Qed.

(** X11. The spin depends on the number of frames and not on the clock:
    after [n] frames, at whatever readings, a body created without a ring
    has spun by [n] increments and a body created with a ring by [2 n],
    the increment being [(2 PI / rotationPeriod) * 0.1 * (PI / 180)]. *)
Theorem createPlanet_spin_counts_frames (name : string) (radius : R)
    (orbitParameters : OrbitParameters) (axialTilt : R)
    (ringRadii : option RingRadii) (orbitalPeriod rotationPeriod : R)
    (times : list R) :
  spin (frames orbitalPeriod rotationPeriod times
          (createPlanet name radius orbitParameters axialTilt ringRadii)) =
  INR (length times) * (match ringRadii with Some _ => 2 | None => 1 end)
  * ((2 * PI / rotationPeriod) * 0.1 * (PI / 180)).
Proof.
  assert (Hgen : forall ts s,
             spin (frames orbitalPeriod rotationPeriod ts s) =
             spin s + INR (length ts) * (match ring s with Some _ => 2 | None => 1 end)
                      * spinIncrement rotationPeriod).
  { unfold frames, run. induction ts as [| now ts IH]; intros s.
    - cbn. ring.
    - cbn [map fold_left call_now call_orbitalPeriod call_rotationPeriod].
      rewrite IH, update_spin, update_ring_position.
      change (length (now :: ts)) with (S (length ts)). rewrite S_INR.
      destruct (ring s); cbn [option_map]; ring. }
  rewrite Hgen. fold (spinIncrement rotationPeriod).
  unfold createPlanet, setTilt, createRing, Mesh_new, spin.
  destruct ringRadii; cbn [planet ring rotation ey]; ring.
Qed.



(** ** The scene as a whole *)

Lemma createPlanet_settled (name : string) (radius : R)
    (orbitParameters : OrbitParameters) (axialTilt : R)
    (ringRadii : option RingRadii) :
  settled (createPlanet name radius orbitParameters axialTilt ringRadii).
Proof.
  unfold settled, createPlanet, setTilt, createRing, Mesh_new.
  destruct ringRadii as [radii |]; cbn [planet ring position]; split.
  - exists 0, 0, 0. reflexivity.
  - intros r Hr. injection Hr as <-. reflexivity.
  - exists 0, 0, 0. reflexivity.
  - intros r Hr. discriminate Hr.
Qed.

(** A valid call on a path of [createOrbit] leaves the system settled. *)
Lemma update_settled (now : R) (system : System)
    (orbitalPeriod rotationPeriod a e inclination lAN aP : R) :
  0 <= now -> 0 < orbitalPeriod ->
  orbit system = createOrbit a e inclination lAN aP ->
  settled (updateSystemPosition now system orbitalPeriod rotationPeriod).
Proof.
  intros Hnow HP Horbit.
  destruct (pointIndex_reads now orbitalPeriod a e inclination lAN aP Hnow HP)
    as (vx & vy & vz & _ & Hx & Hy & Hz).
  unfold settled.
  rewrite update_planet_position, update_ring_position, Horbit, Hx, Hy, Hz.
  unfold Vector3_set. split.
  - exists vx, vy, vz. reflexivity.
  - intros r. destruct (ring system) as [r0 |]; cbn [option_map];
      intros Hr; [injection Hr as <-; reflexivity | discriminate Hr].
Qed.

(** X13. The program as a whole: from the ten systems as created, after
    any number of frames whose clock readings are not negative, every
    body is at a numeric position, none of its coordinates being
    [undefined], and the ring of Saturn is where Saturn is. *)
Theorem animation_keeps_bodies_settled (clocks : list (nat -> R)) :
  (forall now k, In now clocks -> 0 <= now k) ->
  Forall settled (bodies (animation clocks scene_created)).
Proof.
  intros Hclocks.
  set (good := fun body : System =>
                 (exists a e inclination lAN aP,
                    orbit body = createOrbit a e inclination lAN aP) /\
                 settled body).
  assert (Hstep : forall now s,
             (forall k, 0 <= now k) ->
             Forall good (bodies s) -> Forall good (bodies (animate now s))).
  { intros now s Hnow Hs. unfold bodies, animate in *.
    cbn [mercury venus earth mars ceres jupiter saturn uranus neptune pluto].
    repeat (apply Forall_cons_iff in Hs;
            destruct Hs as [[[? [? [? [? [? ?]]]]] _] Hs]).
    repeat (apply Forall_cons; [| try apply Forall_nil]);
      (split;
       [ do 5 eexists; rewrite update_orbit; eassumption
       | eapply update_settled; [apply Hnow | lra | eassumption] ]). }
  assert (Hrun : forall cs s,
             (forall now k, In now cs -> 0 <= now k) ->
             Forall good (bodies s) -> Forall good (bodies (animation cs s))).
  { unfold animation. induction cs as [| now cs IH]; intros s Hcs Hs; cbn [fold_left].
    - exact Hs.
    - apply IH.
      + intros now' k Hin. apply Hcs. right. exact Hin.
      + apply Hstep; [| exact Hs]. intros k. apply Hcs. left. reflexivity. }
  assert (Hstart : Forall good (bodies scene_created)).
  { unfold bodies, scene_created.
    cbn [mercury venus earth mars ceres jupiter saturn uranus neptune pluto].
    repeat (apply Forall_cons; [| try apply Forall_nil]);
      (split; [do 5 eexists; apply createPlanet_orbit | apply createPlanet_settled]). }
  pose proof (Hrun clocks scene_created Hclocks Hstart) as Hall.
  apply Forall_impl with (2 := Hall). intros body [_ Hsettled]. exact Hsettled.
Qed.

Lemma animation_keeps_bodies_settled_witness :
  let clocks := [fun k : nat => 16 + INR k; fun k : nat => 33 + INR k] in
  (forall now k, In now clocks -> 0 <= now k) /\
  Forall settled (bodies (animation clocks scene_created)).
Proof.
  intros clocks.
  assert (Hclocks : forall now k, In now clocks -> 0 <= now k).
  { intros now k [<- | [<- | []]]; pose proof (pos_INR k); lra. }
  split; [exact Hclocks |].
  apply (animation_keeps_bodies_settled clocks Hclocks).
Defined.


